(** * tinySAK counting semaphore: tsk_semaphore.c

    A shallow embedding of [trunk/tinySAK/src/tsk_semaphore.c] together with
    a sequential model of the two native facilities it wraps (POSIX unnamed
    semaphores and Win32 semaphore objects), and the properties of the four
    operations create / increment / decrement / destroy. *)

From Stdlib Require Import ZArith List Lia Bool String.
From stdpp Require Import base gmap sets list.
Import ListNotations.
Local Open Scope Z_scope.

(** ** Constants of the C library

    [errno.h] and [limits.h] are system headers: their constants are taken
    as parameters.  ISO C only promises that the error numbers are positive
    and distinct. *)
Class LibC := {
  EINTR : Z;
  EINVAL : Z;
  EOVERFLOW : Z;
  SEM_VALUE_MAX : Z;
  EINVAL_pos : 0 < EINVAL;
  EINTR_neq_EINVAL : EINTR <> EINVAL
}.

(** [#if TSK_UNDER_WINDOWS] selects one of two bodies for every function. *)
Inductive platform := Windows | Posix.

(** ** The world the code runs in *)

(** A native semaphore: its current count and the largest count it holds. *)
Record sem_obj := SemObj { count : Z; maxcount : Z }.

(** What the environment does to the next fallible platform call: let it
    run, or make it fail with the given error number.  [Fault EINTR] on a
    wait is an interruption by a signal handler. *)
Inductive fault := NoFault | Fault (e : Z).

Inductive pshared := PTHREAD_PROCESS_PRIVATE | PTHREAD_PROCESS_SHARED.

Inductive wait_result := WAIT_OBJECT_0 | WAIT_FAILED.

(** Platform calls with their arguments and result, in program order.  A
    result of [None] is a call that did not return. *)
Inductive call :=
| Call_tsk_calloc (ret : Z)
| Call_sem_init (sem : Z) (ps : pshared) (value : Z) (ret : option Z)
| Call_sem_post (sem : Z) (ret : option Z)
| Call_sem_wait (sem : Z) (ret : option Z)
| Call_sem_destroy (sem : Z) (ret : option Z)
| Call_free (p : Z)
| Call_CreateSemaphore (initial maximum : Z) (ret : Z)
| Call_ReleaseSemaphore (h : Z) (ok : bool)
| Call_WaitForSingleObject (h : Z) (ret : option wait_result)
| Call_CloseHandle (h : Z) (ok : bool).

(** Lines written by the TSK_DEBUG_* macros. *)
Inductive diag :=
| DebugError (msg : string) (arg : option Z)
| DebugWarn (msg : string).

Record world := World {
  sems : gmap Z sem_obj;   (* live native semaphores, by address or handle *)
  blocks : gset Z;         (* heap blocks handed out by tsk_calloc *)
  slots : gmap Z Z;        (* caller-owned handle variables, by address *)
  errno : Z;               (* the calling thread's errno *)
  faults : list fault;     (* what the environment will do next *)
  trace : list call;
  log : list diag
}.

Definition set_sems (s : gmap Z sem_obj) (w : world) : world :=
  World s (blocks w) (slots w) (errno w) (faults w) (trace w) (log w).
Definition set_blocks (b : gset Z) (w : world) : world :=
  World (sems w) b (slots w) (errno w) (faults w) (trace w) (log w).
Definition set_slots (s : gmap Z Z) (w : world) : world :=
  World (sems w) (blocks w) s (errno w) (faults w) (trace w) (log w).
Definition set_errno (e : Z) (w : world) : world :=
  World (sems w) (blocks w) (slots w) e (faults w) (trace w) (log w).
Definition set_faults (f : list fault) (w : world) : world :=
  World (sems w) (blocks w) (slots w) (errno w) f (trace w) (log w).
Definition set_trace (t : list call) (w : world) : world :=
  World (sems w) (blocks w) (slots w) (errno w) (faults w) t (log w).
Definition set_log (l : list diag) (w : world) : world :=
  World (sems w) (blocks w) (slots w) (errno w) (faults w) (trace w) l.

(** ** Outcomes and sequencing *)

Inductive outcome (A : Type) : Type :=
| Done (a : A) (w : world)     (* the call returned [a] *)
| Blocked (w : world)          (* the thread sleeps in a wait with no permit *)
| Crash (w : world)            (* undefined: access through a null or invalid pointer *)
| OutOfFuel (w : world).       (* the loop was cut off while still running *)
Arguments Done {A} a w.
Arguments Blocked {A} w.
Arguments Crash {A} w.
Arguments OutOfFuel {A} w.

Definition M (A : Type) : Type := world -> outcome A.

Definition ret {A} (a : A) : M A := fun w => Done a w.

Definition bind {A B} (m : M A) (k : A -> M B) : M B :=
  fun w =>
    match m w with
    | Done a w' => k a w'
    | Blocked w' => Blocked w'
    | Crash w' => Crash w'
    | OutOfFuel w' => OutOfFuel w'
    end.

Declare Scope sem_scope.
Delimit Scope sem_scope with sem.
Notation "x <- m ;; k" := (bind m (fun x => k))
  (at level 100, m at next level, right associativity) : sem_scope.
Notation "m ;; k" := (bind m (fun _ => k))
  (at level 100, right associativity) : sem_scope.
Local Open Scope sem_scope.

Definition out_of_fuel {A} (o : outcome A) : bool :=
  match o with
  | OutOfFuel _ => true
  | _ => false
  end.

Definition final {A} (o : outcome A) : world :=
  match o with
  | Done _ w | Blocked w | Crash w | OutOfFuel w => w
  end.

Definition modify (f : world -> world) : M unit := fun w => Done tt (f w).
Definition emit (c : call) : M unit := modify (fun w => set_trace (trace w ++ [c]) w).
Definition get_errno : M Z := fun w => Done (errno w) w.
Definition crash {A} : M A := fun w => Crash w.
Definition block {A} : M A := fun w => Blocked w.

Definition pop_fault : M fault :=
  fun w =>
    match faults w with
    | [] => Done NoFault w
    | f :: fs => Done f (set_faults fs w)
    end.

(** [*ref] and [*ref = v] on a caller-owned handle variable. *)
Definition load (ref : Z) : M Z :=
  fun w => match slots w !! ref with Some v => Done v w | None => Crash w end.
Definition store (ref v : Z) : M unit :=
  fun w => match slots w !! ref with
           | Some _ => Done tt (set_slots (<[ref := v]> (slots w)) w)
           | None => Crash w
           end.

(** A command that leaves every caller-owned handle variable as it was,
    however it ends. *)
Definition keeps_slots {A} (m : M A) : Prop :=
  forall w, slots (final (m w)) = slots w.

(** ** Collaborators declared in headers that are not part of the file *)

(** Modelled from the spec: the logger collaborator behind TSK_DEBUG_ERROR
    and TSK_DEBUG_WARN (tsk_debug.h): a diagnostic sink taking a severity
    and a formatted message, purely observational. *)
Definition TSK_DEBUG_ERROR (msg : string) (arg : option Z) : M unit :=
  modify (fun w => set_log (log w ++ [DebugError msg arg]) w).
Definition TSK_DEBUG_WARN (msg : string) : M unit :=
  modify (fun w => set_log (log w ++ [DebugWarn msg]) w).

(** C [free]: no effect on a null pointer, otherwise the block is gone.
    Releasing an address that is no allocated block is undefined in C and
    is not detected here: the heap is a set of addresses kept for leak
    accounting, and the program below reaches [free] only with a block
    tsk_calloc has just returned or with the address of a semaphore that
    sem_destroy has just accepted as live. *)
Definition free (p : Z) : M unit :=
  if p =? 0 then ret tt
  else (emit (Call_free p) ;; modify (fun w => set_blocks (blocks w ∖ {[p]}) w)).

(** The address of a block or kernel object that is not in use: never
    null, never one that is live. *)
Definition fresh_addr (b : gset Z) (s : gmap Z sem_obj) : Z :=
  fresh ({[0]} ∪ b ∪ dom s).
Arguments fresh_addr : simpl never.

(** A handle that create returned and that has not been released since:
    its semaphore is live and, on the POSIX path, its wrapper is an
    allocated block. *)
Definition created (pf : platform) (w : world) (h : Z) : Prop :=
  is_Some (sems w !! h) /\ (pf = Posix -> h ∈ blocks w).

(** [n] calls of the same operation in a row, with their return values. *)
Fixpoint repeat_call (n : nat) (op : M Z) : M (list Z) :=
  match n with
  | O => ret []
  | S k => r <- op ;; rs <- repeat_call k op ;; ret (r :: rs)
  end.

Section Semaphore.
Context `{LibC}.

(** Modelled from the spec: the allocator collaborator tsk_calloc
    (tsk_memory.h): returns a zeroed block, or the absence indicator (the
    null pointer) on exhaustion.  A block is known by its address; its
    size and contents are not modelled, so the request of create, one
    element of sizeof(SEMAPHORE_T) bytes (the size of a pointer), is not
    compared with the size of the sem_t that sem_init then writes. *)
Definition tsk_calloc : M Z :=
  f <- pop_fault ;;
  match f with
  | Fault e =>
      modify (set_errno e) ;; emit (Call_tsk_calloc 0) ;; ret 0
  | NoFault =>
      fun w =>
        let p := fresh_addr (blocks w) (sems w) in
        (modify (fun w => set_blocks ({[p]} ∪ blocks w) w) ;;
         emit (Call_tsk_calloc p) ;; ret p) w
  end.

(** Modelled from the spec: TSK_FREE(ptr) and tsk_free(void** ptr)
    (tsk_memory.h), the release half of the allocator collaborator: the
    block designated by the pointer variable is released and the variable
    is cleared to null; nothing happens when either is already null. *)
Definition TSK_FREE (ptr : Z) : M Z :=
  if ptr =? 0 then ret 0 else (free ptr ;; ret 0).

Definition tsk_free (ptr : Z) : M unit :=
  if ptr =? 0 then ret tt
  else (p <- load ptr ;;
        if p =? 0 then ret tt else (free p ;; store ptr 0)).

(** *** POSIX unnamed semaphores

    The system calls as POSIX describes them, seen from one thread: a call
    returns 0, or -1 with errno set; a wait that finds no permit does not
    return.  POSIX leaves undefined what a call does with a pointer that
    designates no initialised semaphore (null, never initialised, already
    destroyed): the calls dereference it unchecked, and the model stops
    there with [Crash]. *)

Definition posix_fail (e : Z) (c : call) : M Z :=
  modify (set_errno e) ;; emit c ;; ret (-1).

Definition sem_init (sem : Z) (ps : pshared) (value : Z) : M Z :=
  if sem =? 0 then (emit (Call_sem_init sem ps value None) ;; crash)
  else
    f <- pop_fault ;;
    match f with
    | Fault e => posix_fail e (Call_sem_init sem ps value (Some (-1)))
    | NoFault =>
        modify (fun w => set_sems (<[sem := SemObj value SEM_VALUE_MAX]> (sems w)) w) ;;
        emit (Call_sem_init sem ps value (Some 0)) ;; ret 0
    end.

Definition sem_post (sem : Z) : M Z :=
  if sem =? 0 then (emit (Call_sem_post sem None) ;; crash)
  else
    f <- pop_fault ;;
    match f with
    | Fault e => posix_fail e (Call_sem_post sem (Some (-1)))
    | NoFault =>
        fun w =>
          match sems w !! sem with
          | None => (emit (Call_sem_post sem None) ;; crash) w
          | Some s =>
              if count s <? maxcount s then
                (modify (fun w => set_sems (<[sem := SemObj (count s + 1) (maxcount s)]> (sems w)) w) ;;
                 emit (Call_sem_post sem (Some 0)) ;; ret 0) w
              else posix_fail EOVERFLOW (Call_sem_post sem (Some (-1))) w
          end
    end.

(** A successful sem_wait leaves errno as it was. *)
Definition sem_wait (sem : Z) : M Z :=
  if sem =? 0 then (emit (Call_sem_wait sem None) ;; crash)
  else
    f <- pop_fault ;;
    match f with
    | Fault e => posix_fail e (Call_sem_wait sem (Some (-1)))
    | NoFault =>
        fun w =>
          match sems w !! sem with
          | None => (emit (Call_sem_wait sem None) ;; crash) w
          | Some s =>
              if 0 <? count s then
                (modify (fun w => set_sems (<[sem := SemObj (count s - 1) (maxcount s)]> (sems w)) w) ;;
                 emit (Call_sem_wait sem (Some 0)) ;; ret 0) w
              else (emit (Call_sem_wait sem None) ;; block) w
          end
    end.

Definition sem_destroy (sem : Z) : M Z :=
  if sem =? 0 then (emit (Call_sem_destroy sem None) ;; crash)
  else
    fun w =>
      match sems w !! sem with
      | None => (emit (Call_sem_destroy sem None) ;; crash) w
      | Some _ =>
          (modify (fun w => set_sems (delete sem (sems w)) w) ;;
           emit (Call_sem_destroy sem (Some 0)) ;; ret 0) w
      end.

(** *** Win32 semaphore objects

    Handles are looked up in a table, so an invalid or null handle makes
    the call fail instead of faulting; errno is never touched. *)

Definition CreateSemaphore (initial maximum : Z) : M Z :=
  f <- pop_fault ;;
  match f with
  | Fault _ => emit (Call_CreateSemaphore initial maximum 0) ;; ret 0
  | NoFault =>
      fun w =>
        let h := fresh_addr (blocks w) (sems w) in
        (modify (fun w => set_sems (<[h := SemObj initial maximum]> (sems w)) w) ;;
         emit (Call_CreateSemaphore initial maximum h) ;; ret h) w
  end.

Definition ReleaseSemaphore (h : Z) (n : Z) : M bool :=
  f <- pop_fault ;;
  match f with
  | Fault _ => emit (Call_ReleaseSemaphore h false) ;; ret false
  | NoFault =>
      fun w =>
        match sems w !! h with
        | None => (emit (Call_ReleaseSemaphore h false) ;; ret false) w
        | Some s =>
            if count s + n <=? maxcount s then
              (modify (fun w => set_sems (<[h := SemObj (count s + n) (maxcount s)]> (sems w)) w) ;;
               emit (Call_ReleaseSemaphore h true) ;; ret true) w
            else (emit (Call_ReleaseSemaphore h false) ;; ret false) w
        end
  end.

(** WaitForSingleObject with the INFINITE time-out. *)
Definition WaitForSingleObject (h : Z) : M wait_result :=
  f <- pop_fault ;;
  match f with
  | Fault _ => emit (Call_WaitForSingleObject h (Some WAIT_FAILED)) ;; ret WAIT_FAILED
  | NoFault =>
      fun w =>
        match sems w !! h with
        | None => (emit (Call_WaitForSingleObject h (Some WAIT_FAILED)) ;; ret WAIT_FAILED) w
        | Some s =>
            if 0 <? count s then
              (modify (fun w => set_sems (<[h := SemObj (count s - 1) (maxcount s)]> (sems w)) w) ;;
               emit (Call_WaitForSingleObject h (Some WAIT_OBJECT_0)) ;; ret WAIT_OBJECT_0) w
            else (emit (Call_WaitForSingleObject h None) ;; block) w
        end
  end.

Definition CloseHandle (h : Z) : M bool :=
  fun w =>
    match sems w !! h with
    | None => (emit (Call_CloseHandle h false) ;; ret false) w
    | Some _ =>
        (modify (fun w => set_sems (delete h (sems w)) w) ;;
         emit (Call_CloseHandle h true) ;; ret true) w
    end.

(** ** tsk_semaphore.c *)

Definition tsk_semaphore_create (pf : platform) : M Z :=
  handle <-
    match pf with
    | Windows => CreateSemaphore 0 0x7FFFFFFF
    | Posix =>
        handle <- tsk_calloc ;;
        r <- sem_init handle PTHREAD_PROCESS_PRIVATE 0 ;;
        if negb (r =? 0) then
          (handle <- TSK_FREE handle ;;
           TSK_DEBUG_ERROR "Failed to initialize the new semaphore." None ;;
           ret handle)
        else ret handle
    end ;;
  (if handle =? 0 then TSK_DEBUG_ERROR "Failed to create new mutex." None
   else ret tt) ;;
  ret handle.

Definition tsk_semaphore_increment (pf : platform) (handle : Z) : M Z :=
  if negb (handle =? 0) then
    r <- match pf with
         | Windows =>
             ok <- ReleaseSemaphore handle 1 ;;
             ret (if ok then 0 else -1)
         | Posix => sem_post handle
         end ;;
    (if negb (r =? 0) then
       TSK_DEBUG_ERROR "sem_post function failed: %d" (Some r)
     else ret tt) ;;
    ret r
  else ret EINVAL.

(** The body of [do { ret = sem_wait(handle); } while (errno == EINTR)]. *)
Fixpoint sem_wait_loop (fuel : nat) (handle : Z) : M Z :=
  match fuel with
  | O => fun w => OutOfFuel w
  | S fuel' =>
      r <- sem_wait handle ;;
      e <- get_errno ;;
      if e =? EINTR then sem_wait_loop fuel' handle else ret r
  end.

(** Iterations the loop can make before it must return or block: every
    iteration that continues uses up a pending fault or a permit. *)
Definition wait_measure (handle : Z) (w : world) : nat :=
  length (faults w)
  + match sems w !! handle with
    | Some s => Z.to_nat (count s)
    | None => 0
    end.

Definition wait_fuel (handle : Z) (w : world) : nat :=
  S (wait_measure handle w).

Definition tsk_semaphore_decrement (pf : platform) (handle : Z) : M Z :=
  if negb (handle =? 0) then
    match pf with
    | Windows =>
        res <- WaitForSingleObject handle ;;
        let r := match res with WAIT_OBJECT_0 => 0 | WAIT_FAILED => -1 end in
        (if negb (r =? 0) then
           TSK_DEBUG_ERROR "sem_wait function failed: %d" (Some r)
         else ret tt) ;;
        ret r
    | Posix =>
        r <- (fun w => sem_wait_loop (wait_fuel handle w) handle w) ;;
        e <- get_errno ;;
        (if negb (r =? 0) then
           TSK_DEBUG_ERROR "sem_wait function failed: %d" (Some e)
         else ret tt) ;;
        ret r
    end
  else ret EINVAL.

Definition tsk_semaphore_destroy (pf : platform) (handle : Z) : M unit :=
  if negb (handle =? 0) then
    h <- load handle ;;
    if negb (h =? 0) then
      match pf with
      | Windows => CloseHandle h ;; store handle 0
      | Posix => sem_destroy h ;; tsk_free handle
      end
    else TSK_DEBUG_WARN "Cannot free an uninitialized semaphore object"
  else TSK_DEBUG_WARN "Cannot free an uninitialized semaphore object".

(** The largest count a semaphore made by create can hold. *)
Definition sem_max (pf : platform) : Z :=
  match pf with
  | Windows => 0x7FFFFFFF
  | Posix => SEM_VALUE_MAX
  end.

(** What destroy leaves behind when there is nothing to release. *)
Definition warned (w : world) : world :=
  set_log (log w ++ [DebugWarn "Cannot free an uninitialized semaphore object"]) w.

End Semaphore.

(** ** A concrete C library and concrete worlds *)

(** The values of Linux (glibc); the MSVC runtime has the same EINTR and
    EINVAL. *)
Definition glibc : LibC :=
  {| EINTR := 4; EINVAL := 22; EOVERFLOW := 75; SEM_VALUE_MAX := 0x7FFFFFFF;
     EINVAL_pos := eq_refl;
     EINTR_neq_EINVAL := ltac:(discriminate) |}.

Definition ENOMEM : Z := 12.

(** Nothing allocated, nothing pending. *)
Definition empty_world : world := World ∅ ∅ ∅ 0 [] [] [].

(** One live semaphore at address 1 holding [permits] permits, owned
    through the handle variable at address 100. *)
Definition one_sem (permits : Z) (e : Z) (fs : list fault) : world :=
  World {[ 1 := SemObj permits 0x7FFFFFFF ]} {[ 1 ]} {[ 100 := 1 ]} e fs [] [].

(** The same semaphore, with no permit, when the caller has copied the
    handle into a second variable at address 101. *)
Definition two_copies : world :=
  World {[ 1 := SemObj 0 0x7FFFFFFF ]} {[ 1 ]} {[ 100 := 1; 101 := 1 ]}
        0 [] [] [].

(** * Properties *)

Section Properties.
Context `{LibC}.

(** ** Basic facts about the allocator's addresses *)

Lemma fresh_addr_spec (b : gset Z) (s : gmap Z sem_obj) :
  fresh_addr b s ∉ ({[0]} ∪ b ∪ dom s : gset Z).
Proof. unfold fresh_addr. apply is_fresh. Qed.

Lemma fresh_addr_nonzero b s : fresh_addr b s <> 0.
Proof. pose proof (fresh_addr_spec b s). set_solver. Qed.

Lemma fresh_addr_not_block b s : fresh_addr b s ∉ b.
Proof. pose proof (fresh_addr_spec b s). set_solver. Qed.

Lemma fresh_addr_not_sem b (s : gmap Z sem_obj) : s !! fresh_addr b s = None.
Proof.
  pose proof (fresh_addr_spec b s) as Hf.
  apply not_elem_of_dom. set_solver.
Qed.

Lemma eqb_nonzero (p : Z) : p <> 0 -> (p =? 0) = false.
Proof. apply Z.eqb_neq. Qed.

Lemma block_added_then_removed (p : Z) (b : gset Z) :
  p ∉ b -> ({[p]} ∪ b) ∖ {[p]} = b.
Proof.
  intros Hp. apply set_eq. intros x.
  rewrite elem_of_difference, elem_of_union, elem_of_singleton.
  split.
  - intros [[Hx | Hx] Hne]; [contradiction | assumption].
  - intros Hx. split; [right; assumption |]. intros ->. contradiction.
Qed.

Lemma block_removed (p : Z) (b : gset Z) : p ∉ b ∖ {[p]}.
Proof.
  rewrite elem_of_difference, elem_of_singleton.
  intros [_ Hne]. apply Hne. reflexivity.
Qed.

(** Runs a command symbolically: reduce, then decide the null tests and
    the lookups for which a fact is at hand. *)
Ltac run_with tac :=
  repeat (progress (cbn; rewrite ?eqb_nonzero by assumption; tac)).

(** ** The frame of the handle variables *)

Lemma keeps_ret {A} (a : A) : keeps_slots (ret a).
Proof. intros w. reflexivity. Qed.

Lemma keeps_bind {A B} (m : M A) (k : A -> M B) :
  keeps_slots m -> (forall a, keeps_slots (k a)) -> keeps_slots (bind m k).
Proof.
  intros Hm Hk w. unfold bind. specialize (Hm w).
  destruct (m w) as [a w'| w' | w' | w']; cbn in *; try assumption.
  rewrite Hk. assumption.
Qed.

Lemma keeps_modify (f : world -> world) :
  (forall w, slots (f w) = slots w) -> keeps_slots (modify f).
Proof. intros Hf w. cbn. apply Hf. Qed.

Lemma keeps_pop_fault : keeps_slots pop_fault.
Proof. intros w. unfold pop_fault. destruct (faults w); reflexivity. Qed.

Lemma keeps_crash {A} : keeps_slots (@crash A).
Proof. intros w. reflexivity. Qed.

Lemma keeps_block {A} : keeps_slots (@block A).
Proof. intros w. reflexivity. Qed.

Lemma keeps_get_errno : keeps_slots get_errno.
Proof. intros w. reflexivity. Qed.

Lemma keeps_emit (c : call) : keeps_slots (emit c).
Proof. intros w. reflexivity. Qed.

Lemma keeps_debug_error msg arg : keeps_slots (TSK_DEBUG_ERROR msg arg).
Proof. intros w. reflexivity. Qed.

Lemma keeps_free (p : Z) : keeps_slots (free p).
Proof. intros w. unfold free. destruct (p =? 0); reflexivity. Qed.

Create HintDb frame.
#[local] Hint Resolve keeps_ret keeps_pop_fault keeps_crash keeps_block
  keeps_get_errno keeps_emit keeps_debug_error keeps_free : frame.

(** Splits a command along its binds, conditionals and matches. *)
Ltac frame_step :=
  lazymatch goal with
  | |- keeps_slots (bind _ _) => apply keeps_bind; [| intros ?]
  | |- keeps_slots (if ?b then _ else _) => destruct b
  | |- keeps_slots (match ?x with _ => _ end) => destruct x
  | |- keeps_slots (modify _) => apply keeps_modify; intros ?; reflexivity
  | |- keeps_slots (fun w => _) => unfold keeps_slots; intros ?; cbv beta zeta
  | |- keeps_slots _ => solve [ auto with frame ]
  | |- slots (final (match ?x with _ => _ end)) = _ => destruct x
  | |- slots (final (?m ?w)) = slots ?w => refine ((_ : keeps_slots m) w)
  end.

Ltac frame := repeat frame_step.

Lemma keeps_posix_fail e c : keeps_slots (posix_fail e c).
Proof. unfold posix_fail. frame. Qed.
#[local] Hint Resolve keeps_posix_fail : frame.

Lemma keeps_tsk_calloc : keeps_slots tsk_calloc.
Proof. unfold tsk_calloc. frame. Qed.

Lemma keeps_TSK_FREE p : keeps_slots (TSK_FREE p).
Proof. unfold TSK_FREE. frame. Qed.

Lemma keeps_sem_init sem ps v : keeps_slots (sem_init sem ps v).
Proof. unfold sem_init. frame. Qed.

Lemma keeps_sem_post sem : keeps_slots (sem_post sem).
Proof. unfold sem_post. frame. Qed.

Lemma keeps_sem_wait sem : keeps_slots (sem_wait sem).
Proof. unfold sem_wait. frame. Qed.

Lemma keeps_CreateSemaphore i m : keeps_slots (CreateSemaphore i m).
Proof. unfold CreateSemaphore. frame. Qed.

Lemma keeps_ReleaseSemaphore h n : keeps_slots (ReleaseSemaphore h n).
Proof. unfold ReleaseSemaphore. frame. Qed.

Lemma keeps_WaitForSingleObject h : keeps_slots (WaitForSingleObject h).
Proof. unfold WaitForSingleObject. frame. Qed.

#[local] Hint Resolve keeps_tsk_calloc keeps_TSK_FREE keeps_sem_init
  keeps_sem_post keeps_sem_wait keeps_CreateSemaphore keeps_ReleaseSemaphore
  keeps_WaitForSingleObject : frame.

Lemma keeps_sem_wait_loop fuel h : keeps_slots (sem_wait_loop fuel h).
Proof.
  induction fuel as [| n IH]; cbn [sem_wait_loop].
  - intros w. reflexivity.
  - apply keeps_bind; [auto with frame | intros r].
    apply keeps_bind; [auto with frame | intros e].
    destruct (e =? EINTR); [exact IH | auto with frame].
Qed.
#[local] Hint Resolve keeps_sem_wait_loop : frame.

Lemma keeps_create pf : keeps_slots (tsk_semaphore_create pf).
Proof. unfold tsk_semaphore_create. frame. Qed.

Lemma keeps_increment pf h : keeps_slots (tsk_semaphore_increment pf h).
Proof. unfold tsk_semaphore_increment. frame. Qed.

Lemma keeps_decrement pf h : keeps_slots (tsk_semaphore_decrement pf h).
Proof.
  unfold tsk_semaphore_decrement.
  destruct (negb (h =? 0)); [| auto with frame].
  destruct pf; [frame |].
  apply keeps_bind; [| intros r; frame].
  intros w. apply keeps_sem_wait_loop.
Qed.

(** ** Null handles *)

(** C2: signal and wait on a null handle return EINVAL, a value that is not
    the success value 0, and leave the whole world as it was: no platform
    call is traced, nothing is dereferenced, nothing crashes. *)
Theorem null_handle_is_invalid_argument (pf : platform) (w : world) :
  tsk_semaphore_increment pf 0 w = Done EINVAL w
  /\ tsk_semaphore_decrement pf 0 w = Done EINVAL w
  /\ 0 < EINVAL.
Proof.
  split; [reflexivity |]. split; [reflexivity |]. apply EINVAL_pos.
Qed.

(** ** create *)

(** C3: when tsk_calloc reports exhaustion on the POSIX path, create does
    not stop at the absent block: it passes the null pointer on to
    sem_init, which stores through it, and never gets to return a null
    handle. *)
Theorem create_alloc_failure_inits_null (w : world) (e : Z) (fs : list fault) :
  exists w',
    tsk_semaphore_create Posix (set_faults (Fault e :: fs) w) = Crash w'
    /\ trace w' =
       trace w ++ [Call_tsk_calloc 0;
                   Call_sem_init 0 PTHREAD_PROCESS_PRIVATE 0 None].
Proof.
  eexists. split; [reflexivity |].
  cbn. rewrite <- app_assoc. reflexivity.
Qed.

(** C4: when the wrapper was allocated and sem_init fails, create frees the
    wrapper, then logs, then returns the null handle; the heap and the set
    of live semaphores are what they were before the call. *)
Theorem create_init_failure_releases_wrapper
    (w : world) (e : Z) (fs : list fault) :
  exists w' p,
    tsk_semaphore_create Posix (set_faults (NoFault :: Fault e :: fs) w)
      = Done 0 w'
    /\ p <> 0 /\ (p ∉ blocks w)
    /\ trace w' =
       trace w ++ [Call_tsk_calloc p;
                   Call_sem_init p PTHREAD_PROCESS_PRIVATE 0 (Some (-1));
                   Call_free p]
    /\ blocks w' = blocks w
    /\ sems w' = sems w
    /\ log w' =
       log w ++ [DebugError "Failed to initialize the new semaphore." None;
                 DebugError "Failed to create new mutex." None].
Proof.
  pose proof (fresh_addr_nonzero (blocks w) (sems w)) as Hnz.
  pose proof (fresh_addr_not_block (blocks w) (sems w)) as Hnb.
  exists (final (tsk_semaphore_create Posix
                   (set_faults (NoFault :: Fault e :: fs) w))),
         (fresh_addr (blocks w) (sems w)).
  unfold tsk_semaphore_create, tsk_calloc, sem_init, TSK_FREE, free,
    posix_fail, bind, pop_fault.
  cbn. rewrite !(eqb_nonzero _ Hnz). cbn.
  repeat split; try assumption.
  - rewrite <- !app_assoc. reflexivity.
  - apply block_added_then_removed. assumption.
  - rewrite <- app_assoc. reflexivity.
Qed.

(** ** The handle variables *)

(** C8: signal and wait leave every caller-owned handle variable as it
    was, whatever the outcome of the call; so does create. *)
Theorem signal_wait_keep_handle_storage
    (pf : platform) (handle : Z) (w : world) :
  slots (final (tsk_semaphore_increment pf handle w)) = slots w
  /\ slots (final (tsk_semaphore_decrement pf handle w)) = slots w
  /\ slots (final (tsk_semaphore_create pf w)) = slots w.
Proof.
  split; [apply keeps_increment |].
  split; [apply keeps_decrement | apply keeps_create].
Qed.

(** ** destroy *)

(** C5: destroy on a handle variable that holds a live handle releases the
    native object with the platform's release call (and, on the POSIX
    path, the wrapper block), and leaves the null sentinel in the caller's
    variable. *)
Theorem destroy_live_releases_and_clears
    (pf : platform) (w : world) (ref h : Z) (s : sem_obj) :
  ref <> 0 ->
  slots w !! ref = Some h ->
  h <> 0 ->
  sems w !! h = Some s ->
  exists w',
    tsk_semaphore_destroy pf ref w = Done tt w'
    /\ sems w' !! h = None
    /\ slots w' !! ref = Some 0
    /\ (pf = Posix -> h ∉ blocks w')
    /\ trace w' =
       trace w ++ match pf with
                  | Windows => [Call_CloseHandle h true]
                  | Posix => [Call_sem_destroy h (Some 0); Call_free h]
                  end
    /\ sems w' = delete h (sems w)
    /\ slots w' = <[ref := 0]> (slots w)
    /\ log w' = log w.
Proof.
  intros Href Hslot Hh Hlive.
  unfold tsk_semaphore_destroy, bind, load.
  rewrite (eqb_nonzero _ Href). cbn. rewrite Hslot.
  rewrite (eqb_nonzero _ Hh). cbn.
  destruct pf.
  - unfold CloseHandle, store, bind. rewrite Hlive. cbn. rewrite Hslot.
    eexists. split; [reflexivity |]. cbn.
    repeat split.
    + apply lookup_delete_eq.
    + apply lookup_insert_eq.
    + discriminate.
  - unfold sem_destroy, tsk_free, free, load, store, bind.
    run_with ltac:(rewrite ?Hlive, ?Hslot).
    eexists. split; [reflexivity |]. cbn.
    repeat split.
    + apply lookup_delete_eq.
    + apply lookup_insert_eq.
    + intros _. apply block_removed.
    + rewrite <- app_assoc. reflexivity.
Qed.

(** C6 (as amended): on a reference that is null, or is the address of a
    handle variable that holds null or a handle create returned and nobody
    has released, destroy returns; when the reference or the handle it
    holds is null the only effect is one warning (no platform call, no
    release, every other part of the world untouched); and a second destroy
    on the same variable is such a no-op, whatever the first one found. *)
Theorem destroy_completes_and_is_idempotent
    (pf : platform) (ref : Z) (w : world) :
  ref = 0
  \/ (exists h, slots w !! ref = Some h /\ (h = 0 \/ created pf w h)) ->
  exists w1,
    tsk_semaphore_destroy pf ref w = Done tt w1
    /\ (ref = 0 \/ slots w !! ref = Some 0 -> w1 = warned w)
    /\ tsk_semaphore_destroy pf ref w1 = Done tt (warned w1).
Proof.
  intros [-> | (h & Hslot & Hvalid)].
  - exists (warned w). repeat split.
  - assert (Href : ref <> 0 \/ ref = 0) by lia.
    destruct Href as [Href | ->].
    2:{ exists (warned w). repeat split. }
    destruct (Z.eq_dec h 0) as [-> | Hh].
    + exists (warned w). unfold tsk_semaphore_destroy, bind, load.
      rewrite (eqb_nonzero _ Href). cbn. rewrite Hslot. cbn.
      repeat split.
    + destruct Hvalid as [-> | [[s Hlive] _]]; [contradiction |].
      unfold tsk_semaphore_destroy at 1. unfold bind, load.
      rewrite (eqb_nonzero _ Href). cbn. rewrite Hslot.
      rewrite (eqb_nonzero _ Hh). cbn.
      assert (Hsecond : forall w1, slots w1 !! ref = Some 0 ->
                tsk_semaphore_destroy pf ref w1 = Done tt (warned w1)).
      { intros w1 H1. unfold tsk_semaphore_destroy, bind, load.
        rewrite (eqb_nonzero _ Href). cbn. rewrite H1. reflexivity. }
      destruct pf.
      * unfold CloseHandle, store, bind.
        rewrite Hlive. cbn. rewrite Hslot.
        eexists. split; [reflexivity |]. split.
        -- intros [? | ?]; congruence.
        -- apply Hsecond. cbn. apply lookup_insert_eq.
      * unfold sem_destroy, tsk_free, free, load, store, bind.
        run_with ltac:(rewrite ?Hlive, ?Hslot).
        eexists. split; [reflexivity |]. split.
        -- intros [? | ?]; congruence.
        -- apply Hsecond. cbn. apply lookup_insert_eq.
Qed.

(** ** The retry loop of wait *)

(** An iteration after which the loop goes round again has used up a
    pending fault or a permit. *)
Lemma sem_wait_progress (h : Z) (w w' : world) (r : Z) :
  sem_wait h w = Done r w' ->
  errno w' = EINTR ->
  (wait_measure h w' < wait_measure h w)%nat.
Proof.
  pose proof EINTR_neq_EINVAL as Hne.
  unfold sem_wait, posix_fail, bind, pop_fault, wait_measure.
  destruct (h =? 0); [discriminate |].
  destruct (faults w) as [| [| e] fs] eqn:Hf; cbn;
    try (destruct (sems w !! h) as [s |] eqn:Hs; cbn;
         [destruct (0 <? count s) eqn:Hc; cbn |]);
    intros Heq; inversion Heq; subst; cbn; intros He;
    rewrite ?Hf, ?Hs, ?lookup_insert_eq; cbn;
    try congruence; try apply Z.ltb_lt in Hc; try lia.
Qed.

(** With [wait_fuel] iterations at hand the loop is never cut off: it
    returns, blocks or faults. *)
Lemma sem_wait_loop_fuel (n : nat) (h : Z) (w : world) :
  (wait_measure h w < n)%nat ->
  out_of_fuel (sem_wait_loop n h w) = false.
Proof.
  revert w. induction n as [| n IH]; intros w Hn; [lia |].
  cbn [sem_wait_loop]. unfold bind, get_errno.
  destruct (sem_wait h w) as [r w1 | w1 | w1 | w1] eqn:Hw; try reflexivity.
  - destruct (errno w1 =? EINTR) eqn:He; [| reflexivity].
    apply Z.eqb_eq in He. apply IH.
    pose proof (sem_wait_progress h w w1 r Hw He). lia.
  - exfalso. revert Hw. unfold sem_wait, posix_fail, bind, pop_fault.
    destruct (h =? 0); [discriminate |].
    destruct (faults w) as [| [| e] fs]; cbn;
      try (destruct (sems w !! h) as [s |]; cbn;
           [destruct (0 <? count s); cbn |]);
      discriminate.
Qed.

(** X1: wait never uses up its iteration budget: on either path and in
    every world the call returns, blocks in a wait with no permit, or
    faults; the retry loop cannot go round for ever. *)
Theorem decrement_never_cut_off (pf : platform) (h : Z) (w : world) :
  out_of_fuel (tsk_semaphore_decrement pf h w) = false.
Proof.
  unfold tsk_semaphore_decrement.
  destruct (negb (h =? 0)); [| reflexivity].
  destruct pf.
  - unfold WaitForSingleObject, bind, pop_fault.
    destruct (faults w) as [| [| e] fs]; cbn;
      try (destruct (sems w !! h) as [s |]; cbn;
           [destruct (0 <? count s); cbn |]);
      reflexivity.
  - unfold bind at 1.
    pose proof (sem_wait_loop_fuel (wait_fuel h w) h w) as Hfuel.
    destruct (sem_wait_loop (wait_fuel h w) h w) as [r w1 | w1 | w1 | w1];
      try reflexivity.
    + unfold bind, get_errno. destruct (negb (r =? 0)); reflexivity.
    + apply Hfuel. unfold wait_fuel, wait_measure. lia.
Qed.

(** In a quiet environment, entered with errno equal to EINTR, the loop
    takes every permit of a live semaphore and then blocks. *)
Lemma stale_eintr_loop_drains (k : nat) :
  forall (n : nat) (h : Z) (w : world) (c m : Z),
    h <> 0 ->
    faults w = [] ->
    errno w = EINTR ->
    sems w !! h = Some (SemObj c m) ->
    0 <= c ->
    Z.to_nat c = k ->
    (k < n)%nat ->
    exists w',
      sem_wait_loop n h w = Blocked w'
      /\ sems w' = <[h := SemObj 0 m]> (sems w)
      /\ log w' = log w.
Proof.
  induction k as [| k IH]; intros n h w c m Hh Hq He Hlive Hc Hk Hn;
    (destruct n as [| n]; [lia |]);
    cbn [sem_wait_loop]; unfold sem_wait, get_errno, bind, pop_fault.
  - assert (c = 0) by lia. subst c.
    run_with ltac:(rewrite ?Hq, ?Hlive).
    eexists. split; [reflexivity |]. cbn.
    split; [| reflexivity]. symmetry. apply insert_id. assumption.
  - assert (H1 : (0 <? c) = true) by (apply Z.ltb_lt; lia).
    run_with ltac:(rewrite ?Hq, ?Hlive, ?H1, ?He, ?Z.eqb_refl).
    match goal with
    | |- exists w', sem_wait_loop n h ?w1 = _ /\ _ =>
        destruct (IH n h w1 (c - 1) m) as (w' & Hl & Hs & Hlog)
    end; cbn; try assumption; try lia.
    + apply lookup_insert_eq.
    + exists w'. split; [exact Hl |].
      cbn in Hs, Hlog. rewrite insert_insert_eq in Hs. split; assumption.
Qed.

(** X2: on the POSIX path, in an environment that injects no failure, a
    wait on a live semaphore that is entered with errno equal to EINTR never
    returns: it takes every permit the semaphore holds and then blocks,
    logging nothing. *)
Theorem stale_eintr_drains_and_blocks (h : Z) (w : world) (s : sem_obj) :
  h <> 0 ->
  faults w = [] ->
  errno w = EINTR ->
  sems w !! h = Some s ->
  0 <= count s ->
  exists w',
    tsk_semaphore_decrement Posix h w = Blocked w'
    /\ sems w' = <[h := SemObj 0 (maxcount s)]> (sems w)
    /\ log w' = log w.
Proof.
  intros Hh Hq He Hlive Hc. destruct s as [c m]. cbn in *.
  destruct (stale_eintr_loop_drains (Z.to_nat c) (wait_fuel h w) h w c m)
    as (w' & Hl & Hs & Hlog); try assumption; try reflexivity.
  { unfold wait_fuel, wait_measure. rewrite Hlive. cbn. lia. }
  exists w'. unfold tsk_semaphore_decrement.
  rewrite (eqb_nonzero _ Hh). cbn [negb]. unfold bind at 1.
  rewrite Hl. auto.
Qed.

(** ** Permits *)

(** A create that returns a non-null handle has made a semaphore with no
    permit and the platform's maximum. *)
Lemma create_live (pf : platform) (w w1 : world) (h : Z) :
  tsk_semaphore_create pf w = Done h w1 ->
  h <> 0 ->
  sems w1 !! h = Some (SemObj 0 (sem_max pf)).
Proof.
  pose proof (fresh_addr_nonzero (blocks w) (sems w)) as Hnz.
  destruct pf.
  - unfold tsk_semaphore_create, CreateSemaphore, bind, pop_fault.
    destruct (faults w) as [| [| e] fs]; cbn;
      rewrite ?(eqb_nonzero _ Hnz); cbn;
      intros Heq Hh; inversion Heq; subst; cbn;
      solve [ apply lookup_insert_eq | congruence ].
  - unfold tsk_semaphore_create, tsk_calloc, sem_init, TSK_FREE, free,
      posix_fail, bind, pop_fault.
    destruct (faults w) as [| [| e] [| [| e'] fs]] eqn:Hf;
      run_with ltac:(rewrite ?Hf);
      intros Heq Hh; inversion Heq; subst; cbn;
      solve [ apply lookup_insert_eq | congruence ].
Qed.

(** X3: a create that returns the null handle leaves no trace in the
    resources: the live semaphores and the heap blocks are those of before
    the call, on either path. *)
Theorem create_null_leaves_nothing (pf : platform) (w w1 : world) :
  tsk_semaphore_create pf w = Done 0 w1 ->
  sems w1 = sems w /\ blocks w1 = blocks w.
Proof.
  pose proof (fresh_addr_nonzero (blocks w) (sems w)) as Hnz.
  pose proof (fresh_addr_not_block (blocks w) (sems w)) as Hnb.
  destruct pf.
  - unfold tsk_semaphore_create, CreateSemaphore, bind, pop_fault.
    destruct (faults w) as [| [| e] fs]; cbn;
      rewrite ?(eqb_nonzero _ Hnz); cbn;
      intros Heq; inversion Heq; subst; cbn;
      solve [ auto | congruence ].
  - unfold tsk_semaphore_create, tsk_calloc, sem_init, TSK_FREE, free,
      posix_fail, bind, pop_fault.
    destruct (faults w) as [| [| e] [| [| e'] fs]] eqn:Hf;
      run_with ltac:(rewrite ?Hf);
      intros Heq; inversion Heq; subst; cbn;
      solve [ congruence
            | split; [reflexivity | apply block_added_then_removed; assumption] ].
Qed.

Section OnePermit.
Variables (pf : platform) (h : Z) (w : world) (c m : Z).
Hypothesis Hh : h <> 0.
Hypothesis Hquiet : faults w = [].
Hypothesis Hlive : sems w !! h = Some (SemObj c m).

(** With room below the maximum a signal adds one permit and returns 0. *)
Lemma increment_ok :
  c < m ->
  exists w',
    tsk_semaphore_increment pf h w = Done 0 w'
    /\ sems w' !! h = Some (SemObj (c + 1) m)
    /\ faults w' = [] /\ errno w' = errno w.
Proof.
  intros Hroom.
  assert (H1 : (c + 1 <=? m) = true) by (apply Z.leb_le; lia).
  assert (H2 : (c <? m) = true) by (apply Z.ltb_lt; lia).
  unfold tsk_semaphore_increment, ReleaseSemaphore, sem_post, bind, pop_fault.
  destruct pf; run_with ltac:(rewrite ?Hquiet, ?Hlive, ?H1, ?H2);
    (eexists; split; [reflexivity |]; cbn;
     split; [apply lookup_insert_eq | split; [assumption | reflexivity]]).
Qed.

(** With a permit at hand, and errno not EINTR on the POSIX path, a wait
    takes one permit and returns 0 after a single native call. *)
Lemma decrement_ok :
  0 < c ->
  (pf = Posix -> errno w <> EINTR) ->
  exists w',
    tsk_semaphore_decrement pf h w = Done 0 w'
    /\ sems w' !! h = Some (SemObj (c - 1) m)
    /\ faults w' = [] /\ errno w' = errno w.
Proof.
  intros Hpos Herr.
  assert (H1 : (0 <? c) = true) by (apply Z.ltb_lt; lia).
  unfold tsk_semaphore_decrement.
  rewrite (eqb_nonzero _ Hh). cbn [negb].
  destruct pf.
  - unfold WaitForSingleObject, bind, pop_fault.
    run_with ltac:(rewrite ?Hquiet, ?Hlive, ?H1).
    eexists. split; [reflexivity |]. cbn.
    split; [apply lookup_insert_eq | split; [assumption | reflexivity]].
  - specialize (Herr eq_refl). apply Z.eqb_neq in Herr.
    unfold wait_fuel. cbn [sem_wait_loop].
    unfold sem_wait, get_errno, bind, pop_fault.
    run_with ltac:(rewrite ?Hquiet, ?Hlive, ?H1, ?Herr).
    eexists. split; [reflexivity |]. cbn.
    split; [apply lookup_insert_eq | split; [assumption | reflexivity]].
Qed.

(** With no permit a wait blocks in its first native call. *)
Lemma decrement_blocks :
  c <= 0 ->
  exists w',
    tsk_semaphore_decrement pf h w = Blocked w'
    /\ sems w' = sems w.
Proof.
  intros Hzero.
  assert (H1 : (0 <? c) = false) by (apply Z.ltb_ge; lia).
  unfold tsk_semaphore_decrement.
  rewrite (eqb_nonzero _ Hh). cbn [negb].
  destruct pf.
  - unfold WaitForSingleObject, bind, pop_fault.
    run_with ltac:(rewrite ?Hquiet, ?Hlive, ?H1).
    eexists. split; reflexivity.
  - unfold wait_fuel. cbn [sem_wait_loop].
    unfold sem_wait, get_errno, bind, pop_fault.
    run_with ltac:(rewrite ?Hquiet, ?Hlive, ?H1).
    eexists. split; reflexivity.
Qed.

End OnePermit.

Lemma repeat_call_step (n : nat) (op : M Z) (w w1 w2 : world)
    (r : Z) (rs : list Z) :
  op w = Done r w1 ->
  repeat_call n op w1 = Done rs w2 ->
  repeat_call (S n) op w = Done (r :: rs) w2.
Proof.
  intros H1 H2. cbn [repeat_call]. unfold bind. rewrite H1, H2. reflexivity.
Qed.

(** [n] signals in a row all return 0 while the count stays within the
    maximum. *)
Lemma repeat_increment (pf : platform) (h : Z) (n : nat) :
  forall (w : world) (c m : Z),
    h <> 0 ->
    faults w = [] ->
    sems w !! h = Some (SemObj c m) ->
    c + Z.of_nat n <= m ->
    exists w',
      repeat_call n (tsk_semaphore_increment pf h) w = Done (replicate n 0) w'
      /\ sems w' !! h = Some (SemObj (c + Z.of_nat n) m)
      /\ faults w' = [] /\ errno w' = errno w.
Proof.
  induction n as [| n IH]; intros w c m Hh Hquiet Hlive Hroom.
  - exists w. cbn. rewrite Z.add_0_r. auto.
  - destruct (increment_ok pf h w c m Hh Hquiet Hlive) as (w1 & H1 & L1 & Q1 & E1);
      [lia |].
    destruct (IH w1 (c + 1) m Hh Q1 L1) as (w2 & H2 & L2 & Q2 & E2); [lia |].
    exists w2. split; [| split; [| split]].
    + apply (repeat_call_step _ _ _ _ _ _ _ H1 H2).
    + rewrite L2. do 2 f_equal. lia.
    + assumption.
    + congruence.
Qed.

(** [n] waits in a row all return 0 while permits last, when errno is not
    EINTR on the POSIX path. *)
Lemma repeat_decrement (pf : platform) (h : Z) (n : nat) :
  forall (w : world) (c m : Z),
    h <> 0 ->
    faults w = [] ->
    sems w !! h = Some (SemObj c m) ->
    Z.of_nat n <= c ->
    (pf = Posix -> errno w <> EINTR) ->
    exists w',
      repeat_call n (tsk_semaphore_decrement pf h) w = Done (replicate n 0) w'
      /\ sems w' !! h = Some (SemObj (c - Z.of_nat n) m)
      /\ faults w' = [] /\ errno w' = errno w.
Proof.
  induction n as [| n IH]; intros w c m Hh Hquiet Hlive Hroom Herr.
  - exists w. cbn. rewrite Z.sub_0_r. auto.
  - destruct (decrement_ok pf h w c m Hh Hquiet Hlive) as (w1 & H1 & L1 & Q1 & E1);
      [lia | assumption |].
    destruct (IH w1 (c - 1) m Hh Q1 L1) as (w2 & H2 & L2 & Q2 & E2);
      [lia | rewrite E1; assumption |].
    exists w2. split; [| split; [| split]].
    + apply (repeat_call_step _ _ _ _ _ _ _ H1 H2).
    + rewrite L2. do 2 f_equal. lia.
    + assumption.
    + congruence.
Qed.

(** X19: a create that returns a non-null handle has made a semaphore
    whose count is 0 and whose maximum is 0x7FFFFFFF on the Windows path
    and SEM_VALUE_MAX on the POSIX path; for every N up to that maximum,
    when the environment injects no failure and, on the POSIX path, errno
    is not EINTR, N signals in a row return 0 and leave N permits, N waits
    in a row then return 0 and leave none, and the wait after them
    blocks. *)
Theorem create_zero_count_then_n_permits
    (pf : platform) (w w1 : world) (h : Z) (n : nat) :
  tsk_semaphore_create pf w = Done h w1 ->
  h <> 0 ->
  Z.of_nat n <= sem_max pf ->
  faults w1 = [] ->
  (pf = Posix -> errno w1 <> EINTR) ->
  sems w1 !! h = Some (SemObj 0 (sem_max pf))
  /\ exists w2 w3 w4,
       repeat_call n (tsk_semaphore_increment pf h) w1
         = Done (replicate n 0) w2
       /\ sems w2 !! h = Some (SemObj (Z.of_nat n) (sem_max pf))
       /\ repeat_call n (tsk_semaphore_decrement pf h) w2
         = Done (replicate n 0) w3
       /\ sems w3 !! h = Some (SemObj 0 (sem_max pf))
       /\ tsk_semaphore_decrement pf h w3 = Blocked w4.
Proof.
  intros Hcreate Hh Hn Hquiet Herr.
  pose proof (create_live pf w w1 h Hcreate Hh) as Hlive.
  split; [assumption |].
  destruct (repeat_increment pf h n w1 0 (sem_max pf) Hh Hquiet Hlive)
    as (w2 & H2 & L2 & Q2 & E2); [lia |].
  rewrite Z.add_0_l in L2.
  destruct (repeat_decrement pf h n w2 (Z.of_nat n) (sem_max pf) Hh Q2 L2)
    as (w3 & H3 & L3 & Q3 & E3); [lia | rewrite E2; assumption |].
  rewrite Z.sub_diag in L3.
  destruct (decrement_blocks pf h w3 0 (sem_max pf) Hh Q3 L3)
    as (w4 & H4 & _); [lia |].
  exists w2, w3, w4. auto.
Qed.

End Properties.

(** * Effects of the operations on the resources *)

Section Effects.
Context `{LibC}.

Ltac exec_with tac :=
  repeat (progress (cbn; rewrite ?eqb_nonzero by assumption; tac)).

(** ** One native wait *)


Lemma sem_wait_keeps_log_heap (h : Z) (w : world) :
  log (final (sem_wait h w)) = log w
  /\ blocks (final (sem_wait h w)) = blocks w.
Proof.
  unfold sem_wait, posix_fail, bind, pop_fault.
  destruct (h =? 0); [split; reflexivity |].
  destruct (faults w) as [| [| e] fs]; cbn;
    try (destruct (sems w !! h) as [s |]; cbn;
         [destruct (0 <? count s); cbn |]);
    split; reflexivity.
Qed.

(** ** The retry loop *)


(** The loop is left only with errno different from EINTR. *)
Lemma loop_exit_errno (n : nat) (h : Z) (w w' : world) (r : Z) :
  sem_wait_loop n h w = Done r w' ->
  errno w' <> EINTR.
Proof.
  revert w. induction n as [| n IH]; intros w; [discriminate |].
  cbn [sem_wait_loop]. unfold bind, get_errno.
  destruct (sem_wait h w) as [r1 w1 | w1 | w1 | w1]; try discriminate.
  destruct (errno w1 =? EINTR) eqn:Hc.
  - apply IH.
  - intros Heq. inversion Heq; subst. apply Z.eqb_neq. assumption.
Qed.

Lemma loop_keeps_log_heap (n : nat) (h : Z) (w : world) :
  log (final (sem_wait_loop n h w)) = log w
  /\ blocks (final (sem_wait_loop n h w)) = blocks w.
Proof.
  revert w. induction n as [| n IH]; intros w; [split; reflexivity |].
  cbn [sem_wait_loop]. unfold bind, get_errno.
  pose proof (sem_wait_keeps_log_heap h w) as [Hl Hb].
  destruct (sem_wait h w) as [r1 w1 | w1 | w1 | w1]; cbn in *;
    try (split; assumption).
  destruct (errno w1 =? EINTR).
  - destruct (IH w1) as [Hl1 Hb1]. split; congruence.
  - split; assumption.
Qed.


(** What the POSIX body of wait adds after its loop. *)
Lemma posix_decrement_unfold (h : Z) (w w' : world) (r : Z) :
  h <> 0 ->
  tsk_semaphore_decrement Posix h w = Done r w' ->
  exists w1,
    sem_wait_loop (wait_fuel h w) h w = Done r w1
    /\ w' = (if r =? 0 then w1
             else set_log (log w1 ++ [DebugError "sem_wait function failed: %d"
                                        (Some (errno w1))]) w1).
Proof.
  intros Hh. unfold tsk_semaphore_decrement.
  rewrite (eqb_nonzero _ Hh). cbn [negb]. unfold bind at 1.
  destruct (sem_wait_loop (wait_fuel h w) h w) as [r1 w1 | w1 | w1 | w1];
    try discriminate.
  unfold bind, get_errno.
  destruct (r1 =? 0) eqn:Hr; cbn; intros Heq; exists w1;
    inversion Heq; subst; rewrite Hr; split; reflexivity.
Qed.

(** ** wait *)


(** X5: on the POSIX path a wait on a non-null handle never returns with
    errno equal to EINTR; it logs nothing when it returns 0 and otherwise
    logs exactly one error, which carries errno. *)
Theorem wait_never_surfaces_eintr (h : Z) (w w' : world) (r : Z) :
  h <> 0 ->
  tsk_semaphore_decrement Posix h w = Done r w' ->
  errno w' <> EINTR
  /\ log w' =
     log w ++ (if r =? 0 then []
               else [DebugError "sem_wait function failed: %d" (Some (errno w'))]).
Proof.
  intros Hh Heq.
  destruct (posix_decrement_unfold h w w' r Hh Heq) as (w1 & Hl & ->).
  pose proof (loop_exit_errno _ h w w1 r Hl) as He.
  pose proof (loop_keeps_log_heap (wait_fuel h w) h w) as [Hlog _].
  rewrite Hl in Hlog. cbn in Hlog.
  destruct (r =? 0); cbn.
  - split; [assumption |]. rewrite app_nil_r. assumption.
  - split; [assumption |]. rewrite Hlog. reflexivity.
Qed.

(** X6: on the Windows path a wait that returns a failure has taken no
    permit: every semaphore is as it was. *)
Theorem windows_wait_failure_takes_nothing (h : Z) (w w' : world) (r : Z) :
  tsk_semaphore_decrement Windows h w = Done r w' ->
  r <> 0 ->
  sems w' = sems w.
Proof.
  unfold tsk_semaphore_decrement, WaitForSingleObject, bind, pop_fault.
  destruct (h =? 0); cbn.
  { intros Heq _. inversion Heq. reflexivity. }
  destruct (faults w) as [| [| e] fs]; cbn;
    try (destruct (sems w !! h) as [s |]; cbn;
         [destruct (0 <? count s); cbn |]);
    intros Heq Hr; inversion Heq; subst; cbn; try reflexivity; lia.
Qed.

(** ** signal *)

(** X7: a signal that returns 0 has added exactly one permit to a live
    semaphore that had room, and touched no other; a signal that returns
    anything else has changed no semaphore. *)
Theorem signal_adds_one_permit_or_nothing
    (pf : platform) (h : Z) (w w' : world) (r : Z) :
  tsk_semaphore_increment pf h w = Done r w' ->
  (r = 0
   /\ exists s,
        sems w !! h = Some s /\ count s < maxcount s
        /\ sems w' = <[h := SemObj (count s + 1) (maxcount s)]> (sems w))
  \/ (r <> 0 /\ sems w' = sems w).
Proof.
  destruct (Z.eq_dec h 0) as [-> | Hh].
  { intros Heq. assert (Hd : Done EINVAL w = Done r w') by exact Heq.
    inversion Hd; subst. right. pose proof EINVAL_pos. split; [lia | reflexivity]. }
  destruct pf.
  - unfold tsk_semaphore_increment, ReleaseSemaphore, bind, pop_fault.
    rewrite (eqb_nonzero _ Hh). cbn.
    destruct (faults w) as [| [| e] fs]; cbn;
      try (destruct (sems w !! h) as [s |] eqn:Hs; cbn;
           [destruct (count s + 1 <=? maxcount s) eqn:Hc; cbn |]);
      intros Heq; inversion Heq; subst; cbn;
      try (right; split; [lia | reflexivity]);
      left; apply Z.leb_le in Hc;
      (split; [reflexivity |]; exists s; repeat split; try assumption; lia).
  - unfold tsk_semaphore_increment, sem_post, posix_fail, bind, pop_fault.
    rewrite (eqb_nonzero _ Hh). cbn.
    destruct (faults w) as [| [| e] fs]; cbn;
      try (destruct (sems w !! h) as [s |] eqn:Hs; cbn;
           [destruct (count s <? maxcount s) eqn:Hc; cbn |]);
      intros Heq; inversion Heq; subst; cbn;
      try (right; split; [lia | reflexivity]);
      left; apply Z.ltb_lt in Hc;
      (split; [reflexivity |]; exists s; repeat split; assumption).
Qed.

(** X8: a signal on a null handle returns without any diagnostic; on a
    non-null handle it logs nothing when it returns 0 and otherwise logs
    exactly one error, which carries the value returned. *)
Theorem signal_failure_logging
    (pf : platform) (h : Z) (w w' : world) (r : Z) :
  tsk_semaphore_increment pf h w = Done r w' ->
  log w' =
  log w ++ (if (h =? 0) || (r =? 0) then []
            else [DebugError "sem_post function failed: %d" (Some r)]).
Proof.
  unfold tsk_semaphore_increment, ReleaseSemaphore, sem_post, posix_fail,
    bind, pop_fault.
  destruct (h =? 0); cbn.
  { intros Heq. inversion Heq. rewrite app_nil_r. reflexivity. }
  destruct pf; cbn;
    destruct (faults w) as [| [| e] fs]; cbn;
    try (destruct (sems w !! h) as [s |]; cbn;
         [destruct (count s + 1 <=? maxcount s);
          destruct (count s <? maxcount s); cbn |]);
    intros Heq; inversion Heq; subst; cbn;
    rewrite ?app_nil_r; reflexivity.
Qed.

(** ** The heap *)

(** X9: signal and wait neither allocate nor free: the set of heap blocks
    is the same after the call as before it, however the call ends. *)
Theorem signal_wait_keep_heap (pf : platform) (h : Z) (w : world) :
  blocks (final (tsk_semaphore_increment pf h w)) = blocks w
  /\ blocks (final (tsk_semaphore_decrement pf h w)) = blocks w.
Proof.
  split.
  - unfold tsk_semaphore_increment, ReleaseSemaphore, sem_post, posix_fail,
      bind, pop_fault.
    destruct (h =? 0); cbn; [reflexivity |].
    destruct pf; cbn;
      destruct (faults w) as [| [| e] fs]; cbn;
      try (destruct (sems w !! h) as [s |]; cbn;
           [destruct (count s + 1 <=? maxcount s);
            destruct (count s <? maxcount s); cbn |]);
      reflexivity.
  - unfold tsk_semaphore_decrement.
    destruct (h =? 0); cbn [negb]; [reflexivity |].
    destruct pf.
    + unfold WaitForSingleObject, bind, pop_fault.
      destruct (faults w) as [| [| e] fs]; cbn;
        try (destruct (sems w !! h) as [s |]; cbn;
             [destruct (0 <? count s); cbn |]);
        reflexivity.
    + unfold bind at 1.
      pose proof (loop_keeps_log_heap (wait_fuel h w) h w) as [_ Hb].
      destruct (sem_wait_loop (wait_fuel h w) h w) as [r1 w1 | w1 | w1 | w1];
        cbn in Hb; try assumption.
      unfold bind, get_errno. destruct (negb (r1 =? 0)); cbn; assumption.
Qed.

(** ** create and destroy *)

(** What a successful create has done. *)
Lemma create_effect (pf : platform) (w w1 : world) (h : Z) :
  tsk_semaphore_create pf w = Done h w1 ->
  h <> 0 ->
  sems w !! h = None /\ (h ∉ blocks w)
  /\ sems w1 = <[h := SemObj 0 (sem_max pf)]> (sems w)
  /\ blocks w1 = match pf with
                 | Windows => blocks w
                 | Posix => {[h]} ∪ blocks w
                 end
  /\ log w1 = log w /\ errno w1 = errno w.
Proof.
  pose proof (fresh_addr_nonzero (blocks w) (sems w)) as Hnz.
  pose proof (fresh_addr_not_block (blocks w) (sems w)) as Hnb.
  pose proof (fresh_addr_not_sem (blocks w) (sems w)) as Hns.
  destruct pf.
  - unfold tsk_semaphore_create, CreateSemaphore, bind, pop_fault.
    destruct (faults w) as [| [| e] fs]; cbn;
      rewrite ?(eqb_nonzero _ Hnz); cbn;
      intros Heq Hh; inversion Heq; subst; cbn;
      solve [ repeat split; assumption | congruence ].
  - unfold tsk_semaphore_create, tsk_calloc, sem_init, TSK_FREE, free,
      posix_fail, bind, pop_fault.
    destruct (faults w) as [| [| e] [| [| e'] fs]] eqn:Hf;
      exec_with ltac:(rewrite ?Hf);
      intros Heq Hh; inversion Heq; subst; cbn;
      solve [ repeat split; assumption | congruence ].
Qed.

(** What destroy does to a handle variable that holds a live handle. *)
Lemma destroy_live_effect
    (pf : platform) (w : world) (ref h : Z) (s : sem_obj) :
  ref <> 0 ->
  slots w !! ref = Some h ->
  h <> 0 ->
  sems w !! h = Some s ->
  exists w',
    tsk_semaphore_destroy pf ref w = Done tt w'
    /\ sems w' = delete h (sems w)
    /\ blocks w' = match pf with
                   | Windows => blocks w
                   | Posix => blocks w ∖ {[h]}
                   end
    /\ slots w' = <[ref := 0]> (slots w).
Proof.
  intros Href Hslot Hh Hlive.
  unfold tsk_semaphore_destroy, CloseHandle, sem_destroy, tsk_free, free,
    load, store, bind.
  destruct pf; exec_with ltac:(rewrite ?Hlive, ?Hslot);
    (eexists; split; [reflexivity |]; cbn; repeat split).
Qed.

(** X10: a create that returns a non-null handle returns one that was
    neither a live semaphore nor an allocated block before; it leaves
    every semaphore that existed as it was, logs nothing and leaves errno
    alone. *)
Theorem create_success_is_fresh_and_silent
    (pf : platform) (w w1 : world) (h : Z) :
  tsk_semaphore_create pf w = Done h w1 ->
  h <> 0 ->
  sems w !! h = None /\ (h ∉ blocks w)
  /\ (forall h', h' <> h -> sems w1 !! h' = sems w !! h')
  /\ log w1 = log w /\ errno w1 = errno w.
Proof.
  intros Hc Hh.
  destruct (create_effect pf w w1 h Hc Hh) as (Hn & Hb & Hs & _ & Hl & He).
  repeat split; try assumption.
  intros h' Hne. rewrite Hs. apply lookup_insert_ne. congruence.
Qed.

(** X11: two creates in a row that both return non-null handles return
    different handles, and after the second both semaphores are live with
    no permit. *)
Theorem two_creates_distinct_handles
    (pf : platform) (w w1 w2 : world) (h1 h2 : Z) :
  tsk_semaphore_create pf w = Done h1 w1 ->
  tsk_semaphore_create pf w1 = Done h2 w2 ->
  h1 <> 0 ->
  h2 <> 0 ->
  h1 <> h2
  /\ sems w2 !! h1 = Some (SemObj 0 (sem_max pf))
  /\ sems w2 !! h2 = Some (SemObj 0 (sem_max pf)).
Proof.
  intros Hc1 Hc2 Hh1 Hh2.
  destruct (create_effect pf w w1 h1 Hc1 Hh1) as (_ & _ & Hs1 & _).
  destruct (create_effect pf w1 w2 h2 Hc2 Hh2) as (Hn2 & _ & Hs2 & _).
  assert (Hne : h1 <> h2).
  { intros ->. rewrite Hs1, lookup_insert_eq in Hn2. discriminate. }
  split; [assumption |]. rewrite Hs2, Hs1. split.
  - rewrite lookup_insert_ne by congruence. apply lookup_insert_eq.
  - apply lookup_insert_eq.
Qed.

(** X12: a create that returns the null handle has logged its failure:
    one error on the Windows path, and on the POSIX path the sem_init
    failure followed by the same error. *)
Theorem create_failure_is_logged (pf : platform) (w w1 : world) :
  tsk_semaphore_create pf w = Done 0 w1 ->
  log w1 =
  log w ++ match pf with
           | Windows => [DebugError "Failed to create new mutex." None]
           | Posix =>
               [DebugError "Failed to initialize the new semaphore." None;
                DebugError "Failed to create new mutex." None]
           end.
Proof.
  pose proof (fresh_addr_nonzero (blocks w) (sems w)) as Hnz.
  destruct pf.
  - unfold tsk_semaphore_create, CreateSemaphore, bind, pop_fault.
    destruct (faults w) as [| [| e] fs]; cbn;
      rewrite ?(eqb_nonzero _ Hnz); cbn;
      intros Heq; inversion Heq; subst; cbn;
      solve [ reflexivity | congruence ].
  - unfold tsk_semaphore_create, tsk_calloc, sem_init, TSK_FREE, free,
      posix_fail, bind, pop_fault.
    destruct (faults w) as [| [| e] [| [| e'] fs]] eqn:Hf;
      exec_with ltac:(rewrite ?Hf);
      intros Heq; inversion Heq; subst; cbn;
      solve [ congruence | rewrite <- app_assoc; reflexivity ].
Qed.

(** X13: destroy undoes create.  Take a handle returned by create, in a
    later world where it sits in a handle variable, the same semaphores
    are live (the created one with any count) and the heap is unchanged:
    destroy then returns, and the live semaphores and heap blocks are
    exactly those of before the create. *)
Theorem destroy_undoes_create
    (pf : platform) (w w1 w' : world) (h ref : Z) (s : sem_obj) :
  tsk_semaphore_create pf w = Done h w1 ->
  h <> 0 ->
  ref <> 0 ->
  slots w' !! ref = Some h ->
  sems w' = <[h := s]> (sems w1) ->
  blocks w' = blocks w1 ->
  exists w2,
    tsk_semaphore_destroy pf ref w' = Done tt w2
    /\ sems w2 = sems w
    /\ blocks w2 = blocks w
    /\ slots w2 !! ref = Some 0.
Proof.
  intros Hc Hh Href Hslot Hsems Hblocks.
  destruct (create_effect pf w w1 h Hc Hh) as (Hn & Hb & Hs1 & Hb1 & _).
  assert (Hlive : sems w' !! h = Some s)
    by (rewrite Hsems; apply lookup_insert_eq).
  destruct (destroy_live_effect pf w' ref h s Href Hslot Hh Hlive)
    as (w2 & Hd & Hs2 & Hb2 & Hsl2).
  exists w2. split; [assumption |]. split; [| split].
  - rewrite Hs2, Hsems, Hs1, !delete_insert_eq. apply delete_id. assumption.
  - rewrite Hb2, Hblocks, Hb1. destruct pf; [reflexivity |].
    apply block_added_then_removed. assumption.
  - rewrite Hsl2. apply lookup_insert_eq.
Qed.

(** X14: after any destroy that returns, on a non-null reference, the
    handle variable holds null, so a signal or a wait made through the
    variable is refused with EINVAL and reaches no native call. *)
Theorem use_after_destroy_is_rejected
    (pf : platform) (ref : Z) (w w' : world) :
  ref <> 0 ->
  tsk_semaphore_destroy pf ref w = Done tt w' ->
  slots w' !! ref = Some 0
  /\ bind (load ref) (tsk_semaphore_increment pf) w' = Done EINVAL w'
  /\ bind (load ref) (tsk_semaphore_decrement pf) w' = Done EINVAL w'.
Proof.
  intros Href Hd.
  assert (Hs : slots w' !! ref = Some 0).
  { revert Hd.
    unfold tsk_semaphore_destroy, CloseHandle, sem_destroy, tsk_free, free,
      posix_fail, load, store, bind.
    rewrite (eqb_nonzero _ Href). cbn.
    destruct (slots w !! ref) as [h |] eqn:Hslot; [| discriminate].
    destruct (h =? 0) eqn:Hh; cbn.
    - apply Z.eqb_eq in Hh. subst h.
      intros Heq. inversion Heq; subst. cbn. assumption.
    - apply Z.eqb_neq in Hh.
      destruct pf; destruct (sems w !! h);
        exec_with ltac:(rewrite ?Hslot);
        intros Heq; inversion Heq; subst; cbn; apply lookup_insert_eq. }
  split; [assumption |].
  unfold bind, load. rewrite Hs. split; reflexivity.
Qed.

(** ** signal then wait *)

(** X15: on a live semaphore with room for one more permit, in a quiet
    environment (and with errno different from EINTR on the POSIX path),
    a signal followed by a wait both return 0 and leave every semaphore,
    the signalled one included, exactly as it was. *)
Theorem signal_then_wait_restores
    (pf : platform) (h : Z) (w : world) (s : sem_obj) :
  h <> 0 ->
  faults w = [] ->
  sems w !! h = Some s ->
  0 <= count s < maxcount s ->
  (pf = Posix -> errno w <> EINTR) ->
  exists w1 w2,
    tsk_semaphore_increment pf h w = Done 0 w1
    /\ tsk_semaphore_decrement pf h w1 = Done 0 w2
    /\ sems w2 = sems w.
Proof.
  intros Hh Hq Hlive [Hlo Hhi] Herr.
  assert (H1 : (count s + 1 <=? maxcount s) = true) by (apply Z.leb_le; lia).
  assert (H2 : (count s <? maxcount s) = true) by (apply Z.ltb_lt; lia).
  assert (H3 : (0 <? count s + 1) = true) by (apply Z.ltb_lt; lia).
  assert (Hback : <[h := SemObj (count s + 1 - 1) (maxcount s)]>
                    (<[h := SemObj (count s + 1) (maxcount s)]> (sems w))
                  = sems w).
  { rewrite insert_insert_eq, Z.add_simpl_r. apply insert_id.
    destruct s. assumption. }
  destruct pf.
  - unfold tsk_semaphore_increment, tsk_semaphore_decrement, ReleaseSemaphore,
      WaitForSingleObject, bind, pop_fault.
    exec_with ltac:(rewrite ?Hq, ?Hlive, ?H1).
    eexists. eexists. split; [reflexivity |].
    exec_with ltac:(rewrite ?Hq, ?lookup_insert_eq, ?H3).
    split; [reflexivity |]. cbn. assumption.
  - specialize (Herr eq_refl). apply Z.eqb_neq in Herr.
    unfold tsk_semaphore_increment, sem_post, bind, pop_fault.
    exec_with ltac:(rewrite ?Hq, ?Hlive, ?H2).
    eexists. eexists. split; [reflexivity |].
    unfold tsk_semaphore_decrement, wait_fuel.
    rewrite (eqb_nonzero _ Hh). cbn [negb sem_wait_loop].
    unfold sem_wait, get_errno, bind, pop_fault.
    exec_with ltac:(rewrite ?Hq, ?lookup_insert_eq, ?H3, ?Herr).
    split; [reflexivity |]. cbn. assumption.
Qed.

(** ** How the calls can end *)

(** X16: signal always returns on a handle that is null or designates a
    live semaphore (and on the Windows path on every handle): it never
    blocks and never faults there. *)
Theorem signal_always_returns (pf : platform) (h : Z) (w : world) :
  pf = Windows \/ h = 0 \/ is_Some (sems w !! h) ->
  exists r w', tsk_semaphore_increment pf h w = Done r w'.
Proof.
  intros Hok.
  unfold tsk_semaphore_increment, ReleaseSemaphore, sem_post, posix_fail,
    bind, pop_fault.
  destruct (h =? 0) eqn:Hz; cbn; [eexists; eexists; reflexivity |].
  apply Z.eqb_neq in Hz.
  destruct pf; cbn.
  - destruct (faults w) as [| [| e] fs]; cbn;
      try (destruct (sems w !! h) as [s |]; cbn;
           [destruct (count s + 1 <=? maxcount s); cbn |]);
      eexists; eexists; reflexivity.
  - destruct Hok as [Hw | [Hn | [s Hs]]]; [discriminate | contradiction |].
    destruct (faults w) as [| [| e] fs]; cbn; rewrite ?Hs; cbn;
      try destruct (count s <? maxcount s); cbn;
      eexists; eexists; reflexivity.
Qed.

(** X17: on the Windows path create always returns, and it returns the
    null handle exactly when CreateSemaphore fails. *)
Theorem windows_create_always_returns (w : world) :
  exists h w1,
    tsk_semaphore_create Windows w = Done h w1
    /\ (h = 0 <-> exists e fs, faults w = Fault e :: fs).
Proof.
  pose proof (fresh_addr_nonzero (blocks w) (sems w)) as Hnz.
  unfold tsk_semaphore_create, CreateSemaphore, bind, pop_fault.
  destruct (faults w) as [| [| e] fs]; cbn;
    rewrite ?(eqb_nonzero _ Hnz); cbn;
    eexists; eexists; (split; [reflexivity |]).
  - split; [contradiction | intros (e & fs & Hf); discriminate].
  - split; [contradiction | intros (e' & fs' & Hf); discriminate].
  - split; [intros _; eauto | reflexivity].
Qed.




End Effects.

(** * Concrete runs *)

#[local] Existing Instance glibc.

(** C1: one interruption costs more than a retry.  With two permits and
    errno clear, an undisturbed wait returns 0 after one sem_wait and
    leaves one permit; the same wait interrupted once is retried, but the
    successful retry does not end the loop (errno still reads EINTR): the
    second permit is taken too and the call then blocks instead of
    returning. *)
Theorem interrupted_wait_takes_all_permits :
  (exists w',
     tsk_semaphore_decrement Posix 1 (one_sem 2 0 []) = Done 0 w'
     /\ trace w' = [Call_sem_wait 1 (Some 0)]
     /\ sems w' !! 1 = Some (SemObj 1 0x7FFFFFFF))
  /\ (exists w',
        tsk_semaphore_decrement Posix 1 (one_sem 2 0 [Fault EINTR]) = Blocked w'
        /\ trace w' = [Call_sem_wait 1 (Some (-1)); Call_sem_wait 1 (Some 0);
                       Call_sem_wait 1 (Some 0); Call_sem_wait 1 None]
        /\ sems w' !! 1 = Some (SemObj 0 0x7FFFFFFF)).
Proof.
  split; eexists; (split; [vm_compute; reflexivity |]);
    split; vm_compute; reflexivity.
Qed.

(** C9: with one permit and errno left at EINTR by an earlier call, the
    first sem_wait succeeds, yet the loop tests errno alone and calls
    sem_wait again, which blocks: the successful decrement is not
    returned. *)
Theorem stale_eintr_waits_again :
  exists w',
    tsk_semaphore_decrement Posix 1 (one_sem 1 EINTR []) = Blocked w'
    /\ trace w' = [Call_sem_wait 1 (Some 0); Call_sem_wait 1 None]
    /\ sems w' !! 1 = Some (SemObj 0 0x7FFFFFFF).
Proof.
  eexists. split; [vm_compute; reflexivity |].
  split; vm_compute; reflexivity.
Qed.

(** C7: on the POSIX path with errno left at EINTR by an earlier call,
    create succeeds and makes a semaphore with no permit, one signal
    returns 0, and the one wait that should then succeed takes the permit
    and blocks in a second sem_wait instead of returning. *)
Theorem stale_eintr_blocks_first_wait_after_create :
  exists w1 w2 w3,
    tsk_semaphore_create Posix (set_errno EINTR empty_world) = Done 1 w1
    /\ sems w1 !! 1 = Some (SemObj 0 SEM_VALUE_MAX)
    /\ tsk_semaphore_increment Posix 1 w1 = Done 0 w2
    /\ sems w2 !! 1 = Some (SemObj 1 SEM_VALUE_MAX)
    /\ tsk_semaphore_decrement Posix 1 w2 = Blocked w3
    /\ trace w3 =
       trace w2 ++ [Call_sem_wait 1 (Some 0); Call_sem_wait 1 None].
Proof.
  do 3 eexists.
  split; [vm_compute; reflexivity |].
  split; [vm_compute; reflexivity |].
  split; [vm_compute; reflexivity |].
  split; [vm_compute; reflexivity |].
  split; vm_compute; reflexivity.
Qed.

(** C10: a native wait that succeeds is not always reported with 0.  On the
    POSIX path, entered with errno equal to EINTR, three sem_wait calls in
    a row succeed and the call then blocks without having returned; and
    when the sem_wait that follows a success fails for another reason, the
    call returns -1 although one permit has been taken. *)
Theorem successful_sem_wait_is_not_returned :
  (exists w',
     tsk_semaphore_decrement Posix 1 (one_sem 3 EINTR []) = Blocked w'
     /\ trace w' = [Call_sem_wait 1 (Some 0); Call_sem_wait 1 (Some 0);
                    Call_sem_wait 1 (Some 0); Call_sem_wait 1 None])
  /\ (exists w',
        tsk_semaphore_decrement Posix 1 (one_sem 1 EINTR [NoFault; Fault EINVAL])
          = Done (-1) w'
        /\ trace w' = [Call_sem_wait 1 (Some 0); Call_sem_wait 1 (Some (-1))]
        /\ sems w' !! 1 = Some (SemObj 0 0x7FFFFFFF)).
Proof.
  split; eexists; (split; [vm_compute; reflexivity |]).
  - vm_compute. reflexivity.
  - split; vm_compute; reflexivity.
Qed.

(** C6, the claim as first stated: on the POSIX path, when the caller holds
    a second copy of the handle, destroy through the first variable
    releases the semaphore and its wrapper and clears that variable only;
    destroy through the second variable then sees a non-null handle and
    hands the released pointer to sem_destroy and on to free.  The
    behaviour is undefined from the first of the two calls on (with glibc
    the second aborts on the double free): the call does not complete. *)
Lemma destroy_stale_copy_does_not_return :
  exists w1 w2,
    tsk_semaphore_destroy Posix 100 two_copies = Done tt w1
    /\ slots w1 !! 100 = Some 0
    /\ slots w1 !! 101 = Some 1
    /\ tsk_semaphore_destroy Posix 101 w1 = Crash w2
    /\ trace w2 = [Call_sem_destroy 1 (Some 0); Call_free 1;
                   Call_sem_destroy 1 None].
Proof.
  do 2 eexists.
  split; [vm_compute; reflexivity |].
  split; [vm_compute; reflexivity |].
  split; [vm_compute; reflexivity |].
  split; vm_compute; reflexivity.
Qed.

(** ** Instances of the conditional theorems *)

(** C5 at the POSIX path, on a handle variable holding a live handle. *)
Lemma destroy_live_witness :
  100 <> 0
  /\ slots (one_sem 1 0 []) !! 100 = Some 1
  /\ sems (one_sem 1 0 []) !! 1 = Some (SemObj 1 0x7FFFFFFF)
  /\ exists w',
       tsk_semaphore_destroy Posix 100 (one_sem 1 0 []) = Done tt w'
       /\ sems w' !! 1 = None
       /\ slots w' !! 100 = Some 0.
Proof.
  split; [lia |]. split; [reflexivity |]. split; [reflexivity |].
  destruct (destroy_live_releases_and_clears Posix (one_sem 1 0 []) 100 1
              (SemObj 1 0x7FFFFFFF))
    as (w' & H1 & H2 & H3 & _);
    [lia | reflexivity | lia | reflexivity |].
  exists w'. auto.
Defined.

(** C6 (as amended) at the POSIX path: destroy a handle that create
    made, then destroy again. *)
Lemma destroy_twice_witness :
  created Posix (one_sem 1 0 []) 1
  /\ exists w1,
       tsk_semaphore_destroy Posix 100 (one_sem 1 0 []) = Done tt w1
       /\ tsk_semaphore_destroy Posix 100 w1 = Done tt (warned w1).
Proof.
  assert (Hc : created Posix (one_sem 1 0 []) 1).
  { split; [eexists; reflexivity | intros _; vm_compute; reflexivity]. }
  split; [exact Hc |].
  destruct (destroy_completes_and_is_idempotent Posix 100 (one_sem 1 0 []))
    as (w1 & H1 & _ & H2).
  { right. exists 1. split; [reflexivity | right; exact Hc]. }
  exists w1. auto.
Defined.

(** X19 at the POSIX path with three permits. *)
Lemma three_permits_witness :
  exists w1 w2 w3 w4,
    tsk_semaphore_create Posix empty_world = Done 1 w1
    /\ repeat_call 3 (tsk_semaphore_increment Posix 1) w1 = Done [0; 0; 0] w2
    /\ repeat_call 3 (tsk_semaphore_decrement Posix 1) w2 = Done [0; 0; 0] w3
    /\ tsk_semaphore_decrement Posix 1 w3 = Blocked w4.
Proof.
  set (w1 := final (tsk_semaphore_create Posix empty_world)).
  assert (Hc : tsk_semaphore_create Posix empty_world = Done 1 w1)
    by (vm_compute; reflexivity).
  destruct (create_zero_count_then_n_permits Posix empty_world w1 1 3 Hc)
    as (_ & w2 & w3 & w4 & H2 & _ & H3 & _ & H4);
    [lia | cbn; lia | reflexivity | intros _; vm_compute; discriminate |].
  exists w1, w2, w3, w4. auto.
Defined.

(** X2 at a semaphore holding two permits. *)
Lemma stale_eintr_witness :
  exists w',
    tsk_semaphore_decrement Posix 1 (one_sem 2 EINTR []) = Blocked w'
    /\ sems w' = <[1 := SemObj 0 0x7FFFFFFF]> (sems (one_sem 2 EINTR [])).
Proof.
  destruct (stale_eintr_drains_and_blocks 1 (one_sem 2 EINTR [])
              (SemObj 2 0x7FFFFFFF)) as (w' & Hd & Hs & _);
    [lia | reflexivity | reflexivity | reflexivity | cbn; lia |].
  exists w'. auto.
Defined.

(** X3 on the Windows path, when CreateSemaphore fails. *)
Lemma create_null_witness :
  exists w1,
    tsk_semaphore_create Windows (set_faults [Fault ENOMEM] empty_world) = Done 0 w1
    /\ sems w1 = sems empty_world.
Proof.
  set (w1 := final (tsk_semaphore_create Windows
                      (set_faults [Fault ENOMEM] empty_world))).
  assert (Hc : tsk_semaphore_create Windows
                 (set_faults [Fault ENOMEM] empty_world) = Done 0 w1)
    by (vm_compute; reflexivity).
  exists w1. split; [exact Hc |].
  destruct (create_null_leaves_nothing Windows _ w1 Hc) as [Hs _].
  exact Hs.
Defined.

(** ** Instances of the conditional theorems on the effects *)


(** X5 at a POSIX wait that is interrupted once and then fails. *)
Lemma wait_eintr_witness :
  exists w',
    tsk_semaphore_decrement Posix 1 (one_sem 0 0 [Fault EINTR; Fault EINVAL])
      = Done (-1) w'
    /\ errno w' <> EINTR.
Proof.
  set (w := one_sem 0 0 [Fault EINTR; Fault EINVAL]).
  set (w' := final (tsk_semaphore_decrement Posix 1 w)).
  assert (Hd : tsk_semaphore_decrement Posix 1 w = Done (-1) w')
    by (vm_compute; reflexivity).
  exists w'. split; [exact Hd |].
  destruct (wait_never_surfaces_eintr 1 w w' (-1)) as [He _];
    [lia | exact Hd | exact He].
Defined.

(** X6 at a Windows wait that the environment makes fail. *)
Lemma windows_wait_failure_witness :
  exists w',
    tsk_semaphore_decrement Windows 1 (one_sem 1 0 [Fault 6]) = Done (-1) w'
    /\ sems w' = sems (one_sem 1 0 [Fault 6]).
Proof.
  set (w := one_sem 1 0 [Fault 6]).
  set (w' := final (tsk_semaphore_decrement Windows 1 w)).
  assert (Hd : tsk_semaphore_decrement Windows 1 w = Done (-1) w')
    by (vm_compute; reflexivity).
  exists w'. split; [exact Hd |].
  apply (windows_wait_failure_takes_nothing 1 w w' (-1) Hd). lia.
Defined.

(** X7 at a POSIX signal on a semaphore with room. *)
Lemma signal_effect_witness :
  exists w',
    tsk_semaphore_increment Posix 1 (one_sem 1 0 []) = Done 0 w'
    /\ exists s,
         sems (one_sem 1 0 []) !! 1 = Some s
         /\ sems w' = <[1 := SemObj (count s + 1) (maxcount s)]>
                        (sems (one_sem 1 0 [])).
Proof.
  set (w := one_sem 1 0 []).
  set (w' := final (tsk_semaphore_increment Posix 1 w)).
  assert (Hd : tsk_semaphore_increment Posix 1 w = Done 0 w')
    by (vm_compute; reflexivity).
  exists w'. split; [exact Hd |].
  destruct (signal_adds_one_permit_or_nothing Posix 1 w w' 0 Hd)
    as [(_ & s & Hs & _ & Hsems) | (Hr & _)]; [| lia].
  exists s. auto.
Defined.

(** X8 at a Windows signal that the environment makes fail. *)
Lemma signal_logging_witness :
  exists w',
    tsk_semaphore_increment Windows 1 (one_sem 1 0 [Fault 6]) = Done (-1) w'
    /\ log w' = [DebugError "sem_post function failed: %d" (Some (-1))].
Proof.
  set (w := one_sem 1 0 [Fault 6]).
  set (w' := final (tsk_semaphore_increment Windows 1 w)).
  assert (Hd : tsk_semaphore_increment Windows 1 w = Done (-1) w')
    by (vm_compute; reflexivity).
  exists w'. split; [exact Hd |].
  rewrite (signal_failure_logging Windows 1 w w' (-1) Hd). reflexivity.
Defined.

(** X10 at the first POSIX create in an empty world. *)
Lemma create_fresh_witness :
  exists w1,
    tsk_semaphore_create Posix empty_world = Done 1 w1
    /\ log w1 = log empty_world.
Proof.
  set (w1 := final (tsk_semaphore_create Posix empty_world)).
  assert (Hc : tsk_semaphore_create Posix empty_world = Done 1 w1)
    by (vm_compute; reflexivity).
  exists w1. split; [exact Hc |].
  destruct (create_success_is_fresh_and_silent Posix empty_world w1 1 Hc)
    as (_ & _ & _ & Hl & _); [lia | exact Hl].
Defined.

(** X12 at a Windows create whose CreateSemaphore fails. *)
Lemma create_failure_logged_witness :
  exists w1,
    tsk_semaphore_create Windows (set_faults [Fault ENOMEM] empty_world)
      = Done 0 w1
    /\ log w1 = [DebugError "Failed to create new mutex." None].
Proof.
  set (w := set_faults [Fault ENOMEM] empty_world).
  set (w1 := final (tsk_semaphore_create Windows w)).
  assert (Hc : tsk_semaphore_create Windows w = Done 0 w1)
    by (vm_compute; reflexivity).
  exists w1. split; [exact Hc |].
  rewrite (create_failure_is_logged Windows w w1 Hc). reflexivity.
Defined.

(** X14 at a POSIX destroy of a live handle. *)
Lemma use_after_destroy_witness :
  exists w',
    tsk_semaphore_destroy Posix 100 (one_sem 1 0 []) = Done tt w'
    /\ bind (load 100) (tsk_semaphore_increment Posix) w' = Done EINVAL w'.
Proof.
  set (w := one_sem 1 0 []).
  set (w' := final (tsk_semaphore_destroy Posix 100 w)).
  assert (Hd : tsk_semaphore_destroy Posix 100 w = Done tt w')
    by (vm_compute; reflexivity).
  exists w'. split; [exact Hd |].
  destruct (use_after_destroy_is_rejected Posix 100 w w') as (_ & Hi & _);
    [lia | exact Hd | exact Hi].
Defined.

(** X15 at a POSIX semaphore holding one permit. *)
Lemma signal_then_wait_witness :
  exists w1 w2,
    tsk_semaphore_increment Posix 1 (one_sem 1 0 []) = Done 0 w1
    /\ tsk_semaphore_decrement Posix 1 w1 = Done 0 w2
    /\ sems w2 = sems (one_sem 1 0 []).
Proof.
  apply (signal_then_wait_restores Posix 1 (one_sem 1 0 [])
           (SemObj 1 0x7FFFFFFF));
    [lia | reflexivity | reflexivity | cbn; lia | intros _; cbn; lia].
Defined.

(** X11 at two Windows creates in an empty world. *)
Lemma two_creates_witness :
  exists w1 w2,
    tsk_semaphore_create Windows empty_world = Done 1 w1
    /\ tsk_semaphore_create Windows w1 = Done 2 w2
    /\ sems w2 !! 1 = Some (SemObj 0 0x7FFFFFFF)
    /\ sems w2 !! 2 = Some (SemObj 0 0x7FFFFFFF).
Proof.
  set (w1 := final (tsk_semaphore_create Windows empty_world)).
  set (w2 := final (tsk_semaphore_create Windows w1)).
  assert (Hc1 : tsk_semaphore_create Windows empty_world = Done 1 w1)
    by (vm_compute; reflexivity).
  assert (Hc2 : tsk_semaphore_create Windows w1 = Done 2 w2)
    by (vm_compute; reflexivity).
  exists w1, w2.
  destruct (two_creates_distinct_handles Windows empty_world w1 w2 1 2 Hc1 Hc2)
    as (_ & H1 & H2); [lia | lia |].
  auto.
Defined.

(** X13 at a POSIX create, two signals through the caller's variable, and
    the destroy. *)
Lemma destroy_undoes_create_witness :
  exists w1 w2,
    tsk_semaphore_create Posix empty_world = Done 1 w1
    /\ tsk_semaphore_destroy Posix 100
         (final (repeat_call 2 (tsk_semaphore_increment Posix 1)
                   (set_slots {[ 100 := 1 ]} w1)))
       = Done tt w2
    /\ sems w2 = sems empty_world
    /\ blocks w2 = blocks empty_world.
Proof.
  set (w1 := final (tsk_semaphore_create Posix empty_world)).
  set (w' := final (repeat_call 2 (tsk_semaphore_increment Posix 1)
                      (set_slots {[ 100 := 1 ]} w1))).
  assert (Hc : tsk_semaphore_create Posix empty_world = Done 1 w1)
    by (vm_compute; reflexivity).
  destruct (destroy_undoes_create Posix empty_world w1 w' 1 100
              (SemObj 2 0x7FFFFFFF) Hc)
    as (w2 & Hd & Hs & Hb & _);
    [lia | lia | vm_compute; reflexivity | vm_compute; reflexivity
    | vm_compute; reflexivity |].
  exists w1, w2. auto.
Defined.

(** X16 at a POSIX signal on a live semaphore. *)
Lemma signal_returns_witness :
  exists r w', tsk_semaphore_increment Posix 1 (one_sem 1 0 []) = Done r w'.
Proof.
  apply (signal_always_returns Posix 1 (one_sem 1 0 [])).
  right. right. eexists. reflexivity.
Defined.

